(** * The periodic-table viewer (src/App.tsx): geometry, animation and search

    A shallow embedding of the computational parts of [App.tsx]:
    the nucleus particle placement ([Nucleus]), the shell construction
    ([AtomModel]), the per-frame electron update ([Electron]) and the
    element search ([filteredElements]).

    Conventions of the embedding.
    - A JavaScript [number] is an IEEE double.  It is modelled by [num A]:
      [NaN], the two infinities, or a finite value of carrier [A].  The carrier
      is [Z] for the integer-valued quantities of the program (atomic number,
      particle counts, loop indices), [Q] for what [parseFloat] returns, and
      [R] for the geometry, whose arithmetic is therefore exact (no rounding,
      no signed zero).  [inj] is the inclusion of the integer-valued numbers
      in the real-valued ones; in JavaScript it is the identity.
    - Arrays are lists; integers are unbounded.
    - Built-ins of the engine whose definition is not part of the repository
      ([parseFloat], [String.prototype.toLowerCase], [Math.random]) and the
      data set of [./data/elements] are variables of the sections below. *)

From Stdlib Require Import ZArith QArith Qround Reals Lra Lia Bool List.
From Stdlib Require Import Ascii String DecimalString.
Import ListNotations.

Set Implicit Arguments.

(** ** JavaScript numbers *)

Module JS.

Inductive num (A : Type) : Type :=
| NaN : num A
| Inf (negative : bool) : num A
| Fin (a : A) : num A.

Arguments NaN {A}.
Arguments Inf {A} negative.
Arguments Fin {A} a.

Definition Infinity {A} : num A := Inf false.
Definition NegInfinity {A} : num A := Inf true.

(** *** Integer-valued numbers *)

Definition int := num Z.

(** [a + b] *)
Definition add (a b : int) : int :=
  match a, b with
  | NaN, _ | _, NaN => NaN
  | Inf s, Inf s' => if Bool.eqb s s' then Inf s else NaN
  | Inf s, Fin _ | Fin _, Inf s => Inf s
  | Fin x, Fin y => Fin (x + y)%Z
  end.

(** [a - b] *)
Definition sub (a b : int) : int :=
  match a, b with
  | NaN, _ | _, NaN => NaN
  | Inf s, Inf s' => if Bool.eqb s s' then NaN else Inf s
  | Inf s, Fin _ => Inf s
  | Fin _, Inf s => Inf (negb s)
  | Fin x, Fin y => Fin (x - y)%Z
  end.

(** [a < b]; every comparison with [NaN] is false. *)
Definition lt (a b : int) : bool :=
  match a, b with
  | NaN, _ | _, NaN => false
  | Inf s, Inf s' => s && negb s'
  | Inf s, Fin _ => s
  | Fin _, Inf s => negb s
  | Fin x, Fin y => (x <? y)%Z
  end.

(** [Math.round]: the nearest integer, ties towards [+Infinity]. *)
Definition Math_round (x : num Q) : int :=
  match x with
  | NaN => NaN
  | Inf s => Inf s
  | Fin q => Fin (Qfloor (q + (1 # 2)))
  end.

(** *** Real-valued numbers *)

Definition float := num R.

Definition inj (a : int) : float :=
  match a with
  | NaN => NaN
  | Inf s => Inf s
  | Fin z => Fin (IZR z)
  end.

Definition Rneg (a : R) : bool := if Rlt_dec a 0 then true else false.
Definition Rzero (a : R) : bool := if Req_dec_T a 0 then true else false.

(** [a + b] *)
Definition fadd (a b : float) : float :=
  match a, b with
  | NaN, _ | _, NaN => NaN
  | Inf s, Inf s' => if Bool.eqb s s' then Inf s else NaN
  | Inf s, Fin _ | Fin _, Inf s => Inf s
  | Fin x, Fin y => Fin (x + y)%R
  end.

(** [a * b]; [0 * Infinity] is [NaN]. *)
Definition fmul (a b : float) : float :=
  match a, b with
  | NaN, _ | _, NaN => NaN
  | Inf s, Inf s' => Inf (xorb s s')
  | Inf s, Fin x | Fin x, Inf s => if Rzero x then NaN else Inf (xorb s (Rneg x))
  | Fin x, Fin y => Fin (x * y)%R
  end.

(** [a / b]; a finite non-zero value divided by zero is an infinity,
    [0 / 0] and [Infinity / Infinity] are [NaN]. *)
Definition fdiv (a b : float) : float :=
  match a, b with
  | NaN, _ | _, NaN => NaN
  | Inf _, Inf _ => NaN
  | Inf s, Fin y => Inf (xorb s (Rneg y))
  | Fin x, Inf _ => Fin 0%R
  | Fin x, Fin y =>
      if Rzero y then (if Rzero x then NaN else Inf (Rneg x)) else Fin (x / y)%R
  end.

Definition Math_PI : float := Fin PI.

(** [Math.acos]: [NaN] outside [[-1, 1]]. *)
Definition Math_acos (a : float) : float :=
  match a with
  | Fin x => if Rle_dec (-1) x then (if Rle_dec x 1 then Fin (acos x) else NaN) else NaN
  | _ => NaN
  end.

(** [Math.sqrt]: [NaN] on negative numbers. *)
Definition Math_sqrt (a : float) : float :=
  match a with
  | NaN => NaN
  | Inf s => if s then NaN else Inf false
  | Fin x => if Rneg x then NaN else Fin (sqrt x)
  end.

Definition Math_cos (a : float) : float :=
  match a with
  | Fin x => Fin (cos x)
  | _ => NaN
  end.

Definition Math_sin (a : float) : float :=
  match a with
  | Fin x => Fin (sin x)
  | _ => NaN
  end.

End JS.

Import JS.

(** ** Strings *)

Local Open Scope string_scope.

(** [s.includes(searchString)]: [searchString] occurs in [s] at some position. *)
Fixpoint includes (s searchString : string) : bool :=
  prefix searchString s
  || match s with
     | EmptyString => false
     | String _ s' => includes s' searchString
     end.

(** [n.toString()] for an integer [n]: its decimal numeral. *)
Definition toString (n : Z) : string := NilZero.string_of_int (Z.to_int n).

(** *** Reference implementations of two built-ins

    The development below is parametric in [parseFloat] and [toLowerCase].
    These two instances are used to run it on concrete inputs:
    [parseFloat_decimal] reads the longest prefix that is a decimal literal
    (ASCII white space skipped, optional sign, [Infinity], digits with an
    optional fraction and exponent) and returns its exact value;
    [toLowerCase_ascii] maps [A-Z] to [a-z]. *)

Definition digit_of (c : ascii) : option Z :=
  let n := Z.of_N (N_of_ascii c) in
  if ((48 <=? n) && (n <=? 57))%Z then Some (n - 48)%Z else None.

Definition is_white (c : ascii) : bool :=
  let n := N_of_ascii c in
  ((9 <=? n) && (n <=? 13) || (n =? 32))%N.

Fixpoint skip_white (s : string) : string :=
  match s with
  | String c s' => if is_white c then skip_white s' else s
  | EmptyString => s
  end.

(** The longest run of digits at the head of [s]: its value (continuing
    [acc]), its length (continuing [len]) and the rest of the string. *)
Fixpoint DecimalDigits (s : string) (acc : Z) (len : nat) : Z * nat * string :=
  match s with
  | String c s' =>
      match digit_of c with
      | Some d => DecimalDigits s' (10 * acc + d)%Z (S len)
      | None => (acc, len, s)
      end
  | EmptyString => (acc, len, s)
  end.

Definition read_sign (s : string) : bool * string :=
  match s with
  | String "-" s' => (true, s')
  | String "+" s' => (false, s')
  | _ => (false, s)
  end.

(** [ExponentPart], when present and well formed; [0] otherwise. *)
Definition ExponentPart (s : string) : Z :=
  match s with
  | String c s' =>
      if (Ascii.eqb c "e" || Ascii.eqb c "E")%bool then
        let '(neg, s'') := read_sign s' in
        let '(e, len, _) := DecimalDigits s'' 0 0 in
        match len with
        | O => 0%Z
        | _ => if neg then (- e)%Z else e
        end
      else 0%Z
  | EmptyString => 0%Z
  end.

Definition scale (neg : bool) (mantissa exponent : Z) : num Q :=
  let m := if neg then (- mantissa)%Z else mantissa in
  Fin (Qred (inject_Z m * Qpower (10 # 1) exponent)).

Definition parseFloat_decimal (inputString : string) : num Q :=
  let '(neg, s) := read_sign (skip_white inputString) in
  if prefix "Infinity" s then Inf neg
  else
    let '(ip, iplen, s1) := DecimalDigits s 0 0 in
    match s1 with
    | String "." s2 =>
        let '(m, len, s3) := DecimalDigits s2 ip iplen in
        match len with
        | O => NaN
        | _ => scale neg m (ExponentPart s3 - Z.of_nat (len - iplen))
        end
    | _ =>
        match iplen with
        | O => NaN
        | _ => scale neg ip (ExponentPart s1)
        end
    end.

Definition lower_ascii (c : ascii) : ascii :=
  let n := N_of_ascii c in
  if ((65 <=? n) && (n <=? 90))%N then ascii_of_N (n + 32) else c.

Fixpoint toLowerCase_ascii (s : string) : string :=
  match s with
  | String c s' => String (lower_ascii c) (toLowerCase_ascii s')
  | EmptyString => EmptyString
  end.

(** ** The element records *)

(** Modelled from the spec: the [ElementData] interface of [./data/elements]
    (section 3 of the specification); the module is not part of the sources. *)
Record ElementData : Type := {
  number : Z;
  symbol : string;
  name : string;
  hebrewName : string;
  hebrewSummary : string;
  category : string;
  atomicMass : string;
  phase : string;
  shells : list Z;
  x : Z;
  y : Z
}.

(** ** [Nucleus]: particle placement (App.tsx, lines 68-88) *)

Module THREE.
Record Vector3 : Type := { x : float; y : float; z : float }.
Definition origin : Vector3 := {| x := Fin 0%R; y := Fin 0%R; z := Fin 0%R |}.
Definition set_x (v : Vector3) (a : float) : Vector3 := {| x := a; y := y v; z := z v |}.
Definition set_y (v : Vector3) (a : float) : Vector3 := {| x := x v; y := a; z := z v |}.
Definition set_z (v : Vector3) (a : float) : Vector3 := {| x := x v; y := y v; z := a |}.
End THREE.

Record particle : Type := { pos : float * float * float; isProton : bool }.

(** The state of the placement loop.  [pts] is the array of the source;
    [divisors] is a ghost field that records the right operand of every
    division executed so far. *)
Record placement : Type := { pts : list particle; divisors : list float }.

Definition no_particles : placement := {| pts := []; divisors := [] |}.

(** The body of the loop at index [i]. *)
Definition particle_at (protons total : int) (i : Z) : particle :=
  let phi := Math_acos (fadd (Fin (-1)%R) (fdiv (fmul (Fin 2%R) (inj (Fin i))) (inj total))) in
  let theta := fmul (Math_sqrt (fmul (inj total) Math_PI)) phi in
  let r := Fin 0.3%R in
  {| pos := (fmul (fmul r (Math_cos theta)) (Math_sin phi),
             fmul (fmul r (Math_sin theta)) (Math_sin phi),
             fmul r (Math_cos phi));
     isProton := lt (Fin i) protons |}.

(** [for (let i = 0; i < total; i++) { ... pts.push(...) }], started at [i].
    [None] when [fuel] iterations were not enough to leave the loop. *)
Fixpoint for_loop (fuel : nat) (protons total : int) (i : Z) (st : placement)
  : option placement :=
  match fuel with
  | O => None
  | S fuel' =>
      if lt (Fin i) total then
        for_loop fuel' protons total (i + 1)
          {| pts := pts st ++ [particle_at protons total i];
             divisors := divisors st ++ [inj total] |}
      else Some st
  end.

(** The memoised [particles] of [Nucleus]. *)
Definition Nucleus_particles (fuel : nat) (protons neutrons : int) : option placement :=
  let total := add protons neutrons in
  for_loop fuel protons total 0 no_particles.

(** ** [Electron]: the per-frame update (App.tsx, lines 30-41) *)

Record ElectronProps : Type := {
  radius : float;
  speed : float;
  offset : float;
  color : string;
  isPaused : bool
}.

(** The callback given to [useFrame].  [ref] is [ref.current]: the position
    of the mounted group, or [None] while the group is not mounted. *)
Definition Electron_useFrame (props : ElectronProps) (elapsedTime : float)
    (ref : option THREE.Vector3) : option THREE.Vector3 :=
  match ref with
  | Some position =>
      if negb (isPaused props) then
        let t := fadd (fmul elapsedTime (speed props)) (offset props) in
        let position := THREE.set_x position (fmul (Math_cos t) (radius props)) in
        let position := THREE.set_z position (fmul (Math_sin t) (radius props)) in
        let position :=
          THREE.set_y position
            (fmul (Math_sin (fmul t (Fin 0.5%R))) (fmul (radius props) (Fin 0.2%R))) in
        Some position
      else Some position
  | None => None
  end.

(** ** [AtomModel] (App.tsx, lines 113-146) and the search (lines 190-197) *)

Record OrbitProps : Type := {
  orbit_radius : float;
  rotation : float * float * float
}.

(** One [<group key={shellIndex}>]: its orbit ring and its electrons. *)
Record ShellGroup : Type := { orbit : OrbitProps; electrons : list ElectronProps }.

Record NucleusProps : Type := { protons : int; neutrons : int }.

(** What one call of [AtomModel] returns. *)
Record Atom : Type := { nucleus : NucleusProps; groups : list ShellGroup }.

(** [useMemo]: the dependency and the value of the last computation. *)
Record MemoCell (A : Type) : Type := { memo_deps : string; memo_value : A }.

(** [useMemo(factory, [dep])] on a render: the cell after the render and
    whether [factory] was called.  [None] is the cell before the first render. *)
Definition useMemo {A : Type} (factory : unit -> A) (dep : string)
    (cell : option (MemoCell A)) : MemoCell A * bool :=
  match cell with
  | Some c =>
      if String.eqb (memo_deps c) dep then (c, false)
      else ({| memo_deps := dep; memo_value := factory tt |}, true)
  | None => ({| memo_deps := dep; memo_value := factory tt |}, true)
  end.

Section App.

(** [parseFloat] of the engine. *)
Variable parseFloat : string -> num Q.

(** [String.prototype.toLowerCase] of the engine. *)
Variable toLowerCase : string -> string.

(** [Math.random]: the value returned by the [n]-th call since the page
    was loaded.  The number of calls made so far is threaded through the
    functions that draw. *)
Variable Math_random : nat -> R.

(** The [elements] array exported by [./data/elements]. *)
Variable elements : list ElementData.

(** [Array.from({ length: count }).map((_, eIndex) => <Electron ... />)] *)
Definition shell_electrons (count : Z) (shellIndex : nat) (radius : float)
    (isPaused : bool) : list ElectronProps :=
  map (fun eIndex : nat =>
         {| radius := radius;
            speed := fmul (fdiv (Fin 1%R) (inj (Fin (Z.of_nat shellIndex + 1)%Z))) (Fin 2%R);
            offset := fmul (fmul (fdiv (inj (Fin (Z.of_nat eIndex))) (inj (Fin count))) Math_PI)
                        (Fin 2%R);
            color := "#ffff00";
            isPaused := isPaused |})
      (seq 0 (Z.to_nat count)).

(** [element.shells.map((count, shellIndex) => ...)], from index
    [shellIndex] on, after [calls] calls of [Math.random]. *)
Fixpoint shell_groups (shells : list Z) (shellIndex : nat) (isPaused : bool)
    (calls : nat) : list ShellGroup * nat :=
  match shells with
  | [] => ([], calls)
  | count :: rest =>
      let radius := fmul (inj (Fin (Z.of_nat shellIndex + 1)%Z)) (Fin 1.2%R) in
      let rotation :=
        (fmul (Fin (Math_random calls)) Math_PI,
         fmul (Fin (Math_random (calls + 1))) Math_PI,
         fmul (Fin (Math_random (calls + 2))) Math_PI) in
      let group :=
        {| orbit := {| orbit_radius := radius; rotation := rotation |};
           electrons := shell_electrons count shellIndex radius isPaused |} in
      let '(others, calls') := shell_groups rest (S shellIndex) isPaused (calls + 3) in
      (group :: others, calls')
  end.

(** The first two lines of [AtomModel]: the props of its [<Nucleus />]. *)
Definition nucleus_props (element : ElementData) : NucleusProps :=
  let protons : int := Fin (number element) in
  let neutrons := sub (Math_round (parseFloat (atomicMass element))) protons in
  {| protons := protons; neutrons := neutrons |}.

(** One render of [AtomModel], after [calls] calls of [Math.random]. *)
Definition AtomModel (element : ElementData) (isPaused : bool) (calls : nat)
  : Atom * nat :=
  let '(gs, calls') := shell_groups (shells element) 0 isPaused calls in
  ({| nucleus := nucleus_props element; groups := gs |}, calls').

(** The particles of the nucleus that [AtomModel] renders for [element]. *)
Definition AtomModel_particles (fuel : nat) (element : ElementData) : option placement :=
  let props := nucleus_props element in
  Nucleus_particles fuel (protons props) (neutrons props).

(** The predicate given to [elements.filter]. *)
Definition matches (searchTerm : string) (e : ElementData) : bool :=
  includes (hebrewName e) searchTerm
  || includes (toLowerCase (name e)) (toLowerCase searchTerm)
  || includes (toLowerCase (symbol e)) (toLowerCase searchTerm)
  || includes (toString (number e)) searchTerm.

Definition filter_elements (searchTerm : string) : list ElementData :=
  filter (matches searchTerm) elements.

(** [filteredElements] on one render of [App]. *)
Definition filteredElements (searchTerm : string)
    (cell : option (MemoCell (list ElementData)))
  : MemoCell (list ElementData) * bool :=
  useMemo (fun _ => filter_elements searchTerm) searchTerm cell.

(** Successive renders of [App] with the given search terms: the cell
    after the last one and, for every render, whether the filter ran. *)
Fixpoint renders (terms : list string) (cell : option (MemoCell (list ElementData)))
  : option (MemoCell (list ElementData)) * list bool :=
  match terms with
  | [] => (cell, [])
  | searchTerm :: later =>
      let '(c, ran) := filteredElements searchTerm cell in
      let '(final, rans) := renders later (Some c) in
      (final, ran :: rans)
  end.

(** *** The electrons of the scene and the frame loop *)

Definition Scene : Type := list (ElectronProps * option THREE.Vector3).

Definition all_electrons (a : Atom) : list ElectronProps :=
  List.concat (map electrons (groups a)).

(** One frame: every [useFrame] callback runs once. *)
Definition advance_frame (elapsedTime : float) (sc : Scene) : Scene :=
  map (fun e => (fst e, Electron_useFrame (fst e) elapsedTime (snd e))) sc.

(** The frames at the successive clock readings [clock]. *)
Definition run_frames (clock : list float) (sc : Scene) : Scene :=
  fold_left (fun sc elapsedTime => advance_frame elapsedTime sc) clock sc.

Definition positions (sc : Scene) : list (option THREE.Vector3) := map snd sc.

(** *** [App] (App.tsx, lines 181-207 and 431-442) *)

Inductive ViewMode : Type := view3d | view2d.

Inductive Background : Type := space | dark | gradient | minimal.

(** The [useState] cells of [App]. *)
Record AppState : Type := {
  selectedElement : ElementData;
  searchTerm : string;
  viewMode : ViewMode;
  showInfo : bool;
  showList : bool;
  background : Background;
  paused : bool
}.

(** What lives across the renders of [App]: the cell of the [useMemo]
    and the number of calls of [Math.random] made so far. *)
Record Runtime : Type := {
  filtered_cell : option (MemoCell (list ElementData));
  random_calls : nat
}.

(** What a render of [App] shows: the element strip and, in the 3D view,
    the atom on the canvas. *)
Record View : Type := { strip : list ElementData; canvas : option Atom }.

Definition App (st : AppState) (rt : Runtime) : View * Runtime :=
  let '(cell, _) := filteredElements (searchTerm st) (filtered_cell rt) in
  match viewMode st with
  | view3d =>
      let '(atom, calls) := AtomModel (selectedElement st) (paused st) (random_calls rt) in
      ({| strip := memo_value cell; canvas := Some atom |},
       {| filtered_cell := Some cell; random_calls := calls |})
  | view2d =>
      ({| strip := memo_value cell; canvas := None |},
       {| filtered_cell := Some cell; random_calls := random_calls rt |})
  end.

(** [onClick={() => setIsPaused(!isPaused)}] *)
Definition click_pause (st : AppState) : AppState :=
  {| selectedElement := selectedElement st; searchTerm := searchTerm st;
     viewMode := viewMode st; showInfo := showInfo st; showList := showList st;
     background := background st; paused := negb (paused st) |}.

(** [onClick={() => setSelectedElement(element)}] *)
Definition click_element (element : ElementData) (st : AppState) : AppState :=
  {| selectedElement := element; searchTerm := searchTerm st;
     viewMode := viewMode st; showInfo := showInfo st; showList := showList st;
     background := background st; paused := paused st |}.

(** The tilt drawn for the shell of index [s] by a render that starts after
    [calls] calls of [Math.random]. *)
Definition tilt_drawn (calls s : nat) : float * float * float :=
  (fmul (Fin (Math_random (calls + 3 * s))) Math_PI,
   fmul (Fin (Math_random (calls + 3 * s + 1))) Math_PI,
   fmul (Fin (Math_random (calls + 3 * s + 2))) Math_PI).

(** The tilts of the orbit rings on the canvas. *)
Definition tilts (v : View) : list (float * float * float) :=
  match canvas v with
  | Some atom => map (fun g => rotation (orbit g)) (groups atom)
  | None => []
  end.

End App.

(** ** Vocabulary of the statements *)

(** [t] occurs in [s]. *)
Definition substring_of (t s : string) : Prop :=
  exists before after : string, s = before ++ t ++ after.

(** For successive search terms, whether each differs from the one before. *)
Fixpoint changes (previous : string) (terms : list string) : list bool :=
  match terms with
  | [] => []
  | searchTerm :: later => negb (String.eqb previous searchTerm) :: changes searchTerm later
  end.

(** ** Sample data *)

(** An element record with the given atomic number, mass text and shells. *)
Definition sample (number : Z) (atomicMass : string) (shells : list Z) : ElementData :=
  {| number := number; symbol := "X"; name := "Sample"; hebrewName := "sample";
     hebrewSummary := ""; category := ""; atomicMass := atomicMass; phase := "Solid";
     shells := shells; x := 1; y := 1 |}.

(** A record whose [hebrewName] is written with a capital Latin letter. *)
Definition latin_named : ElementData :=
  {| number := 1; symbol := "X"; name := "X"; hebrewName := "H";
     hebrewSummary := ""; category := ""; atomicMass := "1"; phase := "Solid";
     shells := [1%Z]; x := 1; y := 1 |}.

(** A sequence of draws of [Math.random], all different. *)
Definition draws (n : nat) : R := (1 / (INR n + 2))%R.

(** Hydrogen, selected, in the 3D view, not paused. *)
Definition hydrogen_selected : AppState :=
  {| selectedElement := sample 1 "1.008" [1%Z]; searchTerm := ""; viewMode := view3d;
     showInfo := true; showList := true; background := space; paused := false |}.

Definition page_loaded : Runtime := {| filtered_cell := None; random_calls := 0 |}.

(** ** The rest of [App.tsx] *)

(** *** [getCategoryColor] (lines 150-162) and the colour bar (lines 471-474, 509-512) *)

(** The own properties of the object literal [colors], in source order. *)
Definition colors : list (string * string) :=
  [ ("אל-מתכת", "bg-emerald-500/20 border-emerald-500/50 text-emerald-400");
    ("גז אציל", "bg-purple-500/20 border-purple-500/50 text-purple-400");
    ("מתכת אלקלית", "bg-red-500/20 border-red-500/50 text-red-400");
    ("מתכת אלקלית עפרורית", "bg-orange-500/20 border-orange-500/50 text-orange-400");
    ("מתחמת", "bg-blue-500/20 border-blue-500/50 text-blue-400");
    ("הלוגן", "bg-yellow-500/20 border-yellow-500/50 text-yellow-400");
    ("מתכת מעבר", "bg-pink-500/20 border-pink-500/50 text-pink-400");
    ("מתכת מעבר פוסט", "bg-cyan-500/20 border-cyan-500/50 text-cyan-400") ].

(** The own property [key] of an object literal, if it has one. *)
Fixpoint own_property (table : list (string * string)) (key : string) : option string :=
  match table with
  | [] => None
  | (k, v) :: rest => if String.eqb k key then Some v else own_property rest key
  end.

(** What [colors[category] || fallback] evaluates to: a string, or a
    property that [colors] inherits from [Object.prototype] (a function or
    an object, which is truthy and is not a string). *)
Inductive looked_up : Type :=
| a_string (s : string)
| inherited_property.

(** [s.split(' ')] *)
Fixpoint split_space (s : string) : list string :=
  match s with
  | EmptyString => [EmptyString]
  | String c s' =>
      if Ascii.eqb c " " then EmptyString :: split_space s'
      else match split_space s' with
           | piece :: pieces => String c piece :: pieces
           | [] => [String c EmptyString]
           end
  end.

(** [s] without its first [n] characters. *)
Fixpoint skip (n : nat) (s : string) : string :=
  match n, s with
  | S n', String _ s' => skip n' s'
  | _, _ => s
  end.

(** [s.replace(pattern, replacement)] for a string [pattern] and a
    [replacement] without [$]: the first occurrence is replaced. *)
Fixpoint replace (s pattern replacement : string) : string :=
  if prefix pattern s then replacement ++ skip (String.length pattern) s
  else match s with
       | EmptyString => EmptyString
       | String c s' => String c (replace s' pattern replacement)
       end.

Section Styling.

(** Whether [key] names a property of [Object.prototype]. *)
Variable Object_prototype_has : string -> bool.

Definition getCategoryColor (category : string) : looked_up :=
  let fallback := "bg-zinc-500/20 border-zinc-500/50 text-zinc-400" in
  match own_property colors category with
  | Some v => if String.eqb v "" then a_string fallback else a_string v
  | None => if Object_prototype_has category then inherited_property else a_string fallback
  end.

(** [getCategoryColor(element.category).split(' ')[1].replace('border-', 'bg-')];
    [None] when the expression throws a [TypeError]. *)
Definition category_bar (category : string) : option string :=
  match getCategoryColor category with
  | a_string classes =>
      match nth_error (split_space classes) 1 with
      | Some class => Some (replace class "border-" "bg-")
      | None => None
      end
  | inherited_property => None
  end.

End Styling.

(** The property names of [Object.prototype] in a browser. *)
Definition Object_prototype_names : list string :=
  [ "constructor"; "hasOwnProperty"; "isPrototypeOf"; "propertyIsEnumerable";
    "toLocaleString"; "toString"; "valueOf"; "__proto__"; "__defineGetter__";
    "__defineSetter__"; "__lookupGetter__"; "__lookupSetter__" ].

Definition in_Object_prototype (key : string) : bool :=
  existsb (String.eqb key) Object_prototype_names.

(** *** The layout handlers of [App] (lines 199-207) *)

Definition toggleFullInteractive (st : AppState) : AppState :=
  {| selectedElement := selectedElement st; searchTerm := searchTerm st;
     viewMode := viewMode st; showInfo := false; showList := false;
     background := background st; paused := paused st |}.

Definition resetLayout (st : AppState) : AppState :=
  {| selectedElement := selectedElement st; searchTerm := searchTerm st;
     viewMode := viewMode st; showInfo := true; showList := true;
     background := background st; paused := paused st |}.

(** *** What [Nucleus] returns (lines 90-110) *)

Record Mesh : Type := {
  mesh_key : nat;
  mesh_position : float * float * float;
  mesh_color : string;
  mesh_tooltip : option string
}.

(** [particles.map((p, i) => <mesh ...>)], from key [i] on. *)
Fixpoint Nucleus_meshes (particles : list particle) (i : nat) (hoveredIndex : option nat)
  : list Mesh :=
  match particles with
  | [] => []
  | p :: rest =>
      {| mesh_key := i;
         mesh_position := pos p;
         mesh_color := if isProton p then "#ff4444" else "#4444ff";
         mesh_tooltip :=
           match hoveredIndex with
           | Some h => if Nat.eqb h i
                       then Some (if isProton p then "פרוטון" else "ניוטרון")
                       else None
           | None => None
           end |}
      :: Nucleus_meshes rest (S i) hoveredIndex
  end.

(** The sum of the electron counts that [Array.from] turns into electrons. *)
Definition electron_total (shells : list Z) : nat :=
  list_sum (map Z.to_nat shells).


(** * Properties *)

(** ** Arithmetic of the numbers *)

Lemma Rzero_false (a : R) : a <> 0%R -> Rzero a = false.
Proof.
  intros Ha. unfold Rzero. destruct (Req_dec_T a 0) as [E | _]; [contradiction | reflexivity].
Qed.

Lemma Rzero_true (a : R) : a = 0%R -> Rzero a = true.
Proof.
  intros Ha. unfold Rzero. destruct (Req_dec_T a 0) as [_ | N]; [reflexivity | contradiction].
Qed.

Lemma Rneg_false (a : R) : (0 <= a)%R -> Rneg a = false.
Proof.
  intros Ha. unfold Rneg. destruct (Rlt_dec a 0) as [L | _]; [lra | reflexivity].
Qed.

Lemma Rneg_true (a : R) : (a < 0)%R -> Rneg a = true.
Proof.
  intros Ha. unfold Rneg. destruct (Rlt_dec a 0) as [_ | N]; [reflexivity | lra].
Qed.

Lemma fdiv_finite (a b : R) : b <> 0%R -> fdiv (Fin a) (Fin b) = Fin (a / b)%R.
Proof.
  intros Hb. unfold fdiv. now rewrite Rzero_false.
Qed.

Lemma Math_acos_finite (a : R) : (-1 <= a <= 1)%R -> Math_acos (Fin a) = Fin (acos a).
Proof.
  intros [Hl Hu]. unfold Math_acos.
  destruct (Rle_dec (-1) a) as [_ | N]; [ | contradiction].
  destruct (Rle_dec a 1) as [_ | N]; [reflexivity | contradiction].
Qed.

Lemma Math_sqrt_finite (a : R) : (0 <= a)%R -> Math_sqrt (Fin a) = Fin (sqrt a).
Proof.
  intros Ha. unfold Math_sqrt. now rewrite Rneg_false.
Qed.

Lemma fmul_comm (a b : float) : fmul a b = fmul b a.
Proof.
  destruct a as [ | s | u], b as [ | s' | v]; simpl; try reflexivity.
  - now rewrite xorb_comm.
  - now rewrite Rmult_comm.
Qed.

(** ** The placement loop *)

(** With a finite [total], the loop leaves after [total - i] iterations,
    whatever fuel is left beyond them. *)
Lemma for_loop_finite (n : nat) :
  forall (fuel : nat) (protons : int) (total i : Z) (st : placement),
    (i + Z.of_nat n = total)%Z ->
    (n < fuel)%nat ->
    for_loop fuel protons (Fin total) i st
    = Some {| pts := pts st ++ map (fun k : nat => particle_at protons (Fin total) (i + Z.of_nat k))
                                   (seq 0 n);
              divisors := divisors st ++ repeat (Fin (IZR total)) n |}.
Proof.
  induction n as [ | n IH]; intros fuel protons total i st Hn Hfuel.
  - destruct fuel as [ | fuel]; [lia | ]. cbn [for_loop lt seq map repeat].
    replace (i <? total)%Z with false by (symmetry; apply Z.ltb_ge; lia).
    rewrite !app_nil_r. now destruct st.
  - destruct fuel as [ | fuel]; [lia | ]. cbn [for_loop lt].
    replace (i <? total)%Z with true by (symmetry; apply Z.ltb_lt; lia).
    rewrite (IH fuel protons total (i + 1)%Z) by lia.
    assert (Hshift : map (fun k : nat => particle_at protons (Fin total) (i + 1 + Z.of_nat k))
                         (seq 0 n)
                     = map (fun k : nat => particle_at protons (Fin total) (i + Z.of_nat k))
                         (seq 1 n)).
    { rewrite <- seq_shift, map_map. apply map_ext. intros k. f_equal. lia. }
    rewrite Hshift. cbn [pts divisors inj seq map repeat].
    rewrite Z.add_0_r, <- !app_assoc. reflexivity.
Qed.

(** When [i < total] is false the loop is left at once. *)
Lemma for_loop_exit (fuel : nat) (protons total : int) (i : Z) (st : placement) :
  lt (Fin i) total = false -> for_loop (S fuel) protons total i st = Some st.
Proof.
  intros H. cbn [for_loop]. now rewrite H.
Qed.

(** With [total = Infinity] the loop is never left. *)
Lemma for_loop_Infinity (fuel : nat) :
  forall (protons : int) (i : Z) (st : placement),
    for_loop fuel protons Infinity i st = None.
Proof.
  induction fuel as [ | fuel IH]; intros protons i st; [reflexivity | ].
  simpl. apply IH.
Qed.

(** Inside the loop, with a finite [total], every intermediate value of the
    body is finite: the divisor is not zero, the argument of [Math.acos] is
    in [[-1, 1]] and the argument of [Math.sqrt] is not negative. *)
Lemma particle_at_finite (protons : int) (total i : Z) :
  (0 <= i < total)%Z ->
  let phi := acos (-1 + 2 * IZR i / IZR total) in
  let theta := (sqrt (IZR total * PI) * phi)%R in
  particle_at protons (Fin total) i
  = {| pos := (Fin (0.3 * cos theta * sin phi)%R,
               Fin (0.3 * sin theta * sin phi)%R,
               Fin (0.3 * cos phi)%R);
       isProton := lt (Fin i) protons |}.
Proof.
  intros [Hi Ht] phi theta.
  assert (Hi' : (0 <= IZR i)%R) by now apply IZR_le.
  assert (Ht' : (IZR i < IZR total)%R) by now apply IZR_lt.
  assert (Hq : (0 <= IZR i / IZR total <= 1)%R).
  { split.
    - apply Rmult_le_pos; [assumption | ]. left. apply Rinv_0_lt_compat. lra.
    - apply Rmult_le_reg_r with (IZR total); [lra | ].
      unfold Rdiv. rewrite Rmult_assoc, Rinv_l by lra. lra. }
  unfold particle_at, Math_PI. cbn [inj fmul].
  rewrite fdiv_finite by lra. cbn [fadd].
  rewrite Math_acos_finite by (unfold Rdiv in *; lra).
  assert (Hpi := PI_RGT_0).
  rewrite Math_sqrt_finite by (apply Rmult_le_pos; lra).
  reflexivity.
Qed.

(** A point of the parametrization is at distance [r] from the centre. *)
Lemma on_sphere (r theta phi : R) :
  ((r * cos theta * sin phi) * (r * cos theta * sin phi)
   + (r * sin theta * sin phi) * (r * sin theta * sin phi)
   + (r * cos phi) * (r * cos phi) = r * r)%R.
Proof.
  assert (Ht := sin2_cos2 theta). assert (Hp := sin2_cos2 phi).
  unfold Rsqr in Ht, Hp.
  replace (r * cos theta * sin phi * (r * cos theta * sin phi)
           + r * sin theta * sin phi * (r * sin theta * sin phi)
           + r * cos phi * (r * cos phi))%R
    with (r * r * (sin phi * sin phi * (sin theta * sin theta + cos theta * cos theta)
                   + cos phi * cos phi))%R by ring.
  rewrite Ht, Rmult_1_r, Hp. ring.
Qed.

(** ** Claims about the nucleus *)

(** C1.  For non-negative integers [protons] and [neutrons] with
    [total = protons + neutrons > 0], the placement loop ends and returns
    exactly [total] particles.  The particle of index [i] is at
    [(r cos theta sin phi, r sin theta sin phi, r cos phi)] with [r = 0.3],
    [phi = acos (-1 + 2 i / total)] and [theta = sqrt (total * pi) * phi], a
    point of the sphere of radius [0.3]; it is flagged as a proton exactly
    when [i < protons]. *)
Theorem Nucleus_particles_fibonacci_sphere (protons neutrons : Z) :
  (0 <= protons)%Z -> (0 <= neutrons)%Z -> (0 < protons + neutrons)%Z ->
  let total := (protons + neutrons)%Z in
  exists placed : placement,
    (forall fuel : nat, (Z.to_nat total < fuel)%nat ->
       Nucleus_particles fuel (Fin protons) (Fin neutrons) = Some placed)
    /\ Z.of_nat (List.length (pts placed)) = total
    /\ forall i : Z, (0 <= i < total)%Z ->
         let phi := acos (-1 + 2 * IZR i / IZR total) in
         let theta := (sqrt (IZR total * PI) * phi)%R in
         exists px py pz : R,
           nth_error (pts placed) (Z.to_nat i)
           = Some {| pos := (Fin px, Fin py, Fin pz); isProton := (i <? protons)%Z |}
           /\ px = (0.3 * cos theta * sin phi)%R
           /\ py = (0.3 * sin theta * sin phi)%R
           /\ pz = (0.3 * cos phi)%R
           /\ (px * px + py * py + pz * pz = 0.3 * 0.3)%R.
Proof.
  intros Hp Hn Htotal total.
  set (n := Z.to_nat total).
  exists {| pts := map (fun k : nat => particle_at (Fin protons) (Fin total) (0 + Z.of_nat k))
                     (seq 0 n);
            divisors := repeat (Fin (IZR total)) n |}.
  split; [ | split].
  - intros fuel Hfuel. unfold Nucleus_particles. cbn [add]. fold total.
    now rewrite (@for_loop_finite n fuel (Fin protons) total 0%Z no_particles) by (subst n; lia).
  - cbn [pts]. rewrite length_map, length_seq. subst n. lia.
  - intros i Hi phi theta. cbn [pts].
    exists (0.3 * cos theta * sin phi)%R, (0.3 * sin theta * sin phi)%R,
           (0.3 * cos phi)%R.
    split; [ | repeat split; apply on_sphere].
    rewrite nth_error_map, nth_error_seq.
    replace (Z.to_nat i <? n)%nat with true by (symmetry; apply Nat.ltb_lt; subst n; lia).
    cbn [option_map]. rewrite Z.add_0_l, Nat.add_0_l, Z2Nat.id by lia.
    now rewrite particle_at_finite by assumption.
Qed.

(** C2.  When [protons + neutrons = 0] the guard [i < total] fails at
    [i = 0]: the loop returns the empty array after no iteration, so no
    division is executed (in particular none by zero) and nothing fails. *)
Theorem Nucleus_particles_empty (protons neutrons : Z) (fuel : nat) :
  (protons + neutrons = 0)%Z ->
  Nucleus_particles (S fuel) (Fin protons) (Fin neutrons)
  = Some {| pts := []; divisors := [] |}.
Proof.
  intros Hzero. unfold Nucleus_particles. cbn [add]. rewrite Hzero.
  apply for_loop_exit. reflexivity.
Qed.

Lemma Nucleus_particles_empty_witness :
  Nucleus_particles 1 (Fin 0%Z) (Fin 0%Z) = Some {| pts := []; divisors := [] |}.
Proof.
  apply (@Nucleus_particles_empty 0 0 0). reflexivity.
Defined.

Lemma Nucleus_particles_fibonacci_sphere_witness :
  exists placed : placement,
    Nucleus_particles 3 (Fin 1%Z) (Fin 1%Z) = Some placed
    /\ Z.of_nat (List.length (pts placed)) = 2%Z.
Proof.
  destruct (@Nucleus_particles_fibonacci_sphere 1 1) as (placed & Hrun & Hlen & _);
    try lia.
  exists placed. split; [apply Hrun; simpl; lia | exact Hlen].
Defined.

(** ** Claims about the nucleus of an element *)

Lemma isProton_particle_at (protons total : int) (i : Z) :
  isProton (particle_at protons total i) = lt (Fin i) protons.
Proof. reflexivity. Qed.

Section NucleusOfElement.

Variable parseFloat : string -> num Q.

(** The total that [Nucleus] computes from the props given by [AtomModel]. *)
Lemma total_of_element (element : ElementData) :
  add (protons (nucleus_props parseFloat element)) (neutrons (nucleus_props parseFloat element))
  = match Math_round (parseFloat (atomicMass element)) with
    | Fin r => Fin r
    | other => other
    end.
Proof.
  unfold nucleus_props. cbn [protons neutrons].
  destruct (Math_round (parseFloat (atomicMass element))) as [ | s | r]; cbn [add sub].
  - reflexivity.
  - reflexivity.
  - f_equal. lia.
Qed.

(** An atomic mass that is not a number leaves the nucleus empty. *)
Lemma particles_of_NaN_mass (element : ElementData) (fuel : nat) :
  parseFloat (atomicMass element) = NaN ->
  AtomModel_particles parseFloat (S fuel) element = Some no_particles.
Proof.
  intros Hmass. unfold AtomModel_particles, Nucleus_particles.
  rewrite total_of_element, Hmass. cbn [Math_round].
  apply for_loop_exit. reflexivity.
Qed.

(** The particles placed for a finite rounded mass [r]. *)
Lemma particles_of_rounded_mass (element : ElementData) (r : Z) (fuel : nat) :
  Math_round (parseFloat (atomicMass element)) = Fin r ->
  (Z.to_nat r < fuel)%nat ->
  AtomModel_particles parseFloat fuel element
  = Some {| pts := map (fun k : nat => particle_at (Fin (number element)) (Fin r) (Z.of_nat k))
                     (seq 0 (Z.to_nat r));
            divisors := repeat (Fin (IZR r)) (Z.to_nat r) |}.
Proof.
  intros Hround Hfuel. unfold AtomModel_particles, Nucleus_particles.
  rewrite total_of_element, Hround.
  change (protons (nucleus_props parseFloat element)) with (Fin (number element) : int).
  destruct (Z.le_gt_cases r 0) as [Hneg | Hpos].
  - destruct fuel as [ | fuel]; [lia | ].
    rewrite for_loop_exit by (cbn [lt]; apply Z.ltb_ge; lia).
    replace (Z.to_nat r) with 0%nat by lia. reflexivity.
  - now rewrite (@for_loop_finite (Z.to_nat r) fuel (Fin (number element)) r 0%Z no_particles)
      by lia.
Qed.

(** C8 (amended).  For an element whose [atomicMass] does not parse to a
    number, nothing fails, but the neutron count is [NaN] and is not treated
    as zero: the total is [NaN], the guard of the placement loop is false at
    once and the nucleus has no particle at all, protons included.  No
    division is executed. *)
Theorem unparseable_mass_gives_empty_nucleus (element : ElementData) (fuel : nat) :
  parseFloat (atomicMass element) = NaN ->
  neutrons (nucleus_props parseFloat element) = NaN
  /\ AtomModel_particles parseFloat (S fuel) element = Some {| pts := []; divisors := [] |}.
Proof.
  intros Hmass. split.
  - unfold nucleus_props. cbn [neutrons]. now rewrite Hmass.
  - now apply particles_of_NaN_mass.
Qed.

(** C10 (amended).  For an element whose rounded atomic mass is smaller than
    its atomic number, the placement ends without error; it produces [r]
    particles when the rounded mass is an integer [r >= 0] and none when the
    rounded mass is negative or [-Infinity]; every particle is flagged as a
    proton, and there are fewer of them than the atomic number when that is
    positive. *)
Theorem light_nucleus_only_protons (element : ElementData) :
  lt (Math_round (parseFloat (atomicMass element))) (Fin (number element)) = true ->
  let count := match Math_round (parseFloat (atomicMass element)) with
               | Fin r => Z.max 0 r
               | _ => 0%Z
               end in
  exists placed : placement,
    (forall fuel : nat, (Z.to_nat count < fuel)%nat ->
       AtomModel_particles parseFloat fuel element = Some placed)
    /\ Z.of_nat (List.length (pts placed)) = count
    /\ Forall (fun p => isProton p = true) (pts placed)
    /\ ((0 < number element)%Z -> (count < number element)%Z).
Proof.
  intros Hlt count.
  destruct (Math_round (parseFloat (atomicMass element))) as [ | s | r] eqn:Hround.
  - discriminate Hlt.
  - cbn [lt] in Hlt. subst s. exists no_particles. subst count. repeat split.
    + intros fuel Hfuel. destruct fuel as [ | fuel]; [simpl in Hfuel; lia | ].
      unfold AtomModel_particles, Nucleus_particles.
      rewrite total_of_element, Hround. apply for_loop_exit. reflexivity.
    + constructor.
    + trivial.
  - cbn [lt] in Hlt. apply Z.ltb_lt in Hlt.
    exists {| pts := map (fun k : nat => particle_at (Fin (number element)) (Fin r) (Z.of_nat k))
                       (seq 0 (Z.to_nat r));
              divisors := repeat (Fin (IZR r)) (Z.to_nat r) |}.
    subst count. repeat split.
    + intros fuel Hfuel. apply particles_of_rounded_mass; [assumption | lia].
    + cbn [pts]. rewrite length_map, length_seq. lia.
    + cbn [pts]. apply Forall_forall. intros p Hin.
      apply in_map_iff in Hin. destruct Hin as (k & <- & Hk).
      apply in_seq in Hk. rewrite isProton_particle_at. cbn [lt].
      apply Z.ltb_lt. lia.
    + lia.
Qed.

End NucleusOfElement.

Lemma unparseable_mass_gives_empty_nucleus_witness :
  neutrons (nucleus_props parseFloat_decimal (sample 118 "(294)" [2; 8; 18; 32; 32; 18; 8]%Z)) = NaN
  /\ AtomModel_particles parseFloat_decimal 1 (sample 118 "(294)" [2; 8; 18; 32; 32; 18; 8]%Z)
     = Some {| pts := []; divisors := [] |}.
Proof.
  apply (@unparseable_mass_gives_empty_nucleus parseFloat_decimal). reflexivity.
Defined.

(** C8 as stated fails: the element of atomic number 3 with mass text ["n/a"]
    does not get the nucleus of 3 protons and 0 neutrons. *)
Lemma unparseable_mass_is_not_zero_neutrons :
  ~ (forall (element : ElementData) (fuel : nat),
       parseFloat_decimal (atomicMass element) = NaN ->
       AtomModel_particles parseFloat_decimal fuel element
       = Nucleus_particles fuel (Fin (number element)) (Fin 0%Z)).
Proof.
  intros Hclaim.
  specialize (Hclaim (sample 3 "n/a" [2; 1]%Z) 4%nat eq_refl).
  rewrite particles_of_NaN_mass in Hclaim by reflexivity.
  change (Nucleus_particles 4 (Fin (number (sample 3 "n/a" [2; 1]%Z))) (Fin 0%Z))
    with (for_loop 4 (Fin 3%Z) (Fin 3%Z) 0 no_particles) in Hclaim.
  rewrite (@for_loop_finite 3 4 (Fin 3%Z) 3%Z 0%Z no_particles) in Hclaim by (simpl; lia).
  discriminate Hclaim.
Qed.

Lemma light_nucleus_only_protons_witness :
  exists placed : placement,
    AtomModel_particles parseFloat_decimal 3 (sample 3 "1.6" [2; 1]%Z) = Some placed
    /\ Z.of_nat (List.length (pts placed)) = 2%Z
    /\ Forall (fun p => isProton p = true) (pts placed).
Proof.
  destruct (@light_nucleus_only_protons parseFloat_decimal (sample 3 "1.6" [2; 1]%Z))
    as (placed & Hrun & Hlen & Hall & _); [reflexivity | ].
  exists placed. split; [apply Hrun; simpl; lia | split; [exact Hlen | exact Hall]].
Defined.

(** C10 as stated fails on a negative mass: the element of atomic number 1
    with mass text ["-3"] has rounded mass [-3 < 1], and its nucleus has 0
    particles, not [-3]. *)
Lemma negative_mass_gives_no_particles :
  ~ (forall (element : ElementData) (r : Z) (fuel : nat) (placed : placement),
       Math_round (parseFloat_decimal (atomicMass element)) = Fin r ->
       (r < number element)%Z ->
       AtomModel_particles parseFloat_decimal fuel element = Some placed ->
       Z.of_nat (List.length (pts placed)) = r).
Proof.
  intros Hclaim.
  assert (H := Hclaim (sample 1 "-3" [1]%Z) (-3)%Z 1%nat no_particles
                     eq_refl eq_refl eq_refl).
  discriminate H.
Qed.

(** ** Claims about the electrons *)

Lemma Rzero_mult (a b : R) : Rzero (a * b) = Rzero a || Rzero b.
Proof.
  unfold Rzero.
  destruct (Req_dec_T a 0) as [Ea | Na], (Req_dec_T b 0) as [Eb | Nb],
           (Req_dec_T (a * b) 0) as [E | N]; simpl; try reflexivity; exfalso.
  - apply N. subst. ring.
  - apply N. subst. ring.
  - apply N. subst. ring.
  - apply Rmult_integral in E. tauto.
Qed.

Lemma Rneg_mult (a b : R) :
  a <> 0%R -> b <> 0%R -> Rneg (a * b) = xorb (Rneg a) (Rneg b).
Proof.
  intros Ha Hb. unfold Rneg.
  destruct (Rlt_dec a 0) as [La | La], (Rlt_dec b 0) as [Lb | Lb],
           (Rlt_dec (a * b) 0) as [L | L]; simpl; try reflexivity; exfalso; nra.
Qed.

Lemma Rzero_nonzero (a : R) : Rzero a = false -> a <> 0%R.
Proof.
  unfold Rzero. destruct (Req_dec_T a 0); [discriminate | trivial].
Qed.

(** The product of numbers is associative, [NaN] and infinities included. *)
Lemma fmul_assoc (a b c : float) : fmul (fmul a b) c = fmul a (fmul b c).
Proof.
  destruct a as [ | sa | u], b as [ | sb | v], c as [ | sc | w]; cbn [fmul];
    try reflexivity;
    repeat match goal with
      | |- context [Rzero (?p * ?q)] => rewrite (Rzero_mult p q)
      | |- context [Rzero ?p] => let E := fresh "E" in destruct (Rzero p) eqn:E; cbn [fmul orb]
      end; try reflexivity.
  all: try (now rewrite Rmult_assoc).
  all: repeat match goal with
         | H : Rzero ?p = false |- _ => apply Rzero_nonzero in H
         end.
  all: try rewrite Rneg_mult by assumption.
  all: f_equal;
    repeat match goal with
      | |- context [Rneg ?p] => destruct (Rneg p)
      | s : bool |- _ => destruct s
      end; reflexivity.
Qed.

(** C4.  When the electron is not paused, a frame at clock reading
    [elapsedTime] moves the electron to
    [(radius * cos t, sin (t * 0.5) * radius * 0.2, radius * sin t)] with
    [t = elapsedTime * speed + offset], wherever it was before. *)
Theorem Electron_useFrame_unpaused (props : ElectronProps) (elapsedTime : float)
    (position : THREE.Vector3) :
  isPaused props = false ->
  let t := fadd (fmul elapsedTime (speed props)) (offset props) in
  Electron_useFrame props elapsedTime (Some position)
  = Some {| THREE.x := fmul (radius props) (Math_cos t);
            THREE.y := fmul (fmul (Math_sin (fmul t (Fin 0.5%R))) (radius props)) (Fin 0.2%R);
            THREE.z := fmul (radius props) (Math_sin t) |}.
Proof.
  intros Hrun t. unfold Electron_useFrame. rewrite Hrun. cbn [negb].
  fold t. unfold THREE.set_x, THREE.set_y, THREE.set_z. cbn [THREE.x THREE.y THREE.z].
  now rewrite fmul_assoc, (fmul_comm (Math_cos t)), (fmul_comm (Math_sin t)).
Qed.

(** A running electron of radius 2 and speed 1, at clock reading 0, is put at
    [(2 cos 0, sin 0 * 2 * 0.2, 2 sin 0)]. *)
Lemma Electron_useFrame_unpaused_witness :
  Electron_useFrame
    {| radius := Fin 2%R; speed := Fin 1%R; offset := Fin 0%R; color := "#ffff00";
       isPaused := false |}
    (Fin 0%R) (Some THREE.origin)
  = Some {| THREE.x := Fin (2 * cos (0 * 1 + 0))%R;
            THREE.y := Fin (sin ((0 * 1 + 0) * 0.5) * 2 * 0.2)%R;
            THREE.z := Fin (2 * sin (0 * 1 + 0))%R |}.
Proof.
  apply (@Electron_useFrame_unpaused
           {| radius := Fin 2%R; speed := Fin 1%R; offset := Fin 0%R; color := "#ffff00";
              isPaused := false |} (Fin 0%R) THREE.origin).
  reflexivity.
Defined.

(** A paused electron is left where it is by a frame. *)
Lemma Electron_useFrame_paused (props : ElectronProps) (elapsedTime : float)
    (ref : option THREE.Vector3) :
  isPaused props = true -> Electron_useFrame props elapsedTime ref = ref.
Proof.
  intros Hpaused. unfold Electron_useFrame. rewrite Hpaused. now destruct ref.
Qed.

Lemma advance_frame_paused (elapsedTime : float) (sc : Scene) :
  Forall (fun e => isPaused (fst e) = true) sc -> advance_frame elapsedTime sc = sc.
Proof.
  intros Hall. unfold advance_frame. induction Hall as [ | [props ref] sc Hp _ IH].
  - reflexivity.
  - cbn [map fst snd] in *. now rewrite IH, Electron_useFrame_paused.
Qed.

Lemma run_frames_paused (clock : list float) (sc : Scene) :
  Forall (fun e => isPaused (fst e) = true) sc -> run_frames clock sc = sc.
Proof.
  intros Hall. unfold run_frames. induction clock as [ | elapsedTime clock IH].
  - reflexivity.
  - cbn [fold_left]. now rewrite advance_frame_paused.
Qed.

Section Shells.

Variable parseFloat : string -> num Q.
Variable Math_random : nat -> R.

(** Every electron of a shell receives the [isPaused] of [AtomModel]. *)
Lemma shell_electrons_isPaused (count : Z) (shellIndex : nat) (radius : float) (flag : bool) :
  Forall (fun e => isPaused e = flag) (shell_electrons count shellIndex radius flag).
Proof.
  unfold shell_electrons. apply Forall_forall. intros e Hin.
  apply in_map_iff in Hin. now destruct Hin as (eIndex & <- & _).
Qed.

Lemma shell_groups_isPaused (shells : list Z) (flag : bool) :
  forall shellIndex calls : nat,
    Forall (fun e => isPaused e = flag)
      (List.concat (map electrons (fst (shell_groups Math_random shells shellIndex flag calls)))).
Proof.
  induction shells as [ | count rest IH]; intros shellIndex calls.
  - constructor.
  - cbn [shell_groups]. specialize (IH (S shellIndex) (calls + 3)%nat).
    destruct (shell_groups Math_random rest (S shellIndex) flag (calls + 3)) as [others calls'].
    cbn [fst map List.concat electrons] in *. apply Forall_app. split.
    + apply shell_electrons_isPaused.
    + exact IH.
Qed.

Lemma AtomModel_isPaused (element : ElementData) (flag : bool) (calls : nat) :
  Forall (fun e => isPaused e = flag)
    (all_electrons (fst (AtomModel parseFloat Math_random element flag calls))).
Proof.
  unfold AtomModel, all_electrons.
  assert (H := shell_groups_isPaused (shells element) flag 0 calls).
  destruct (shell_groups Math_random (shells element) 0 flag calls) as [gs calls'].
  exact H.
Qed.

Lemma Forall_combine_fst (A B : Type) (P : A -> Prop) (l : list A) :
  Forall P l -> forall l' : list B, Forall (fun e => P (fst e)) (combine l l').
Proof.
  induction 1 as [ | a l Ha _ IH]; intros l'.
  - constructor.
  - destruct l' as [ | b l']; constructor; [exact Ha | apply IH].
Qed.

(** C5.  In a scene rendered with [isPaused = true], whatever the positions
    of the electrons are, a further frame leaves every position unchanged:
    the positions after frame [k + 1] are those after frame [k], which are
    those before the first frame, for all the electrons of all the shells
    and for every clock reading. *)
Theorem paused_frames_freeze_all_electrons (element : ElementData) (calls : nat)
    (refs : list (option THREE.Vector3)) (clock : list float) (elapsedTime : float) :
  let sc : Scene :=
    combine (all_electrons (fst (AtomModel parseFloat Math_random element true calls))) refs in
  positions (run_frames (clock ++ [elapsedTime]) sc) = positions (run_frames clock sc)
  /\ positions (run_frames clock sc) = positions sc
  /\ Forall (fun e => forall t ref, Electron_useFrame (fst e) t ref = ref) sc.
Proof.
  intros sc.
  assert (Hall : Forall (fun e => isPaused (fst e) = true) sc).
  { subst sc. apply (@Forall_combine_fst _ _ (fun e => isPaused e = true)).
    apply AtomModel_isPaused. }
  repeat split.
  - now rewrite !run_frames_paused.
  - now rewrite run_frames_paused.
  - apply Forall_forall. intros e He t ref. apply Electron_useFrame_paused.
    revert e He. now apply Forall_forall.
Qed.

End Shells.

(** ** Claims about the shells *)

Section ShellConstruction.

Variable parseFloat : string -> num Q.
Variable Math_random : nat -> R.

(** The group built for the shell of index [s]: it is the [s]-th group, it
    draws the three tilt angles at calls [3 s], [3 s + 1] and [3 s + 2] of
    the render. *)
Lemma shell_groups_nth_error (flag : bool) (shells : list Z) :
  forall (shellIndex calls s : nat) (count : Z),
    nth_error shells s = Some count ->
    let radius := fmul (inj (Fin (Z.of_nat (shellIndex + s) + 1)%Z)) (Fin 1.2%R) in
    nth_error (fst (shell_groups Math_random shells shellIndex flag calls)) s
    = Some {| orbit :=
                {| orbit_radius := radius;
                   rotation := (fmul (Fin (Math_random (calls + 3 * s))) Math_PI,
                                fmul (Fin (Math_random (calls + 3 * s + 1))) Math_PI,
                                fmul (Fin (Math_random (calls + 3 * s + 2))) Math_PI) |};
              electrons := shell_electrons count (shellIndex + s) radius flag |}.
Proof.
  induction shells as [ | c rest IH]; intros shellIndex calls s count Hs.
  - destruct s; discriminate Hs.
  - cbn [shell_groups]. specialize (IH (S shellIndex) (calls + 3)%nat).
    destruct (shell_groups Math_random rest (S shellIndex) flag (calls + 3)) as [others calls'].
    destruct s as [ | s]; cbn [fst nth_error] in *.
    + injection Hs as ->. rewrite Nat.mul_0_r, !Nat.add_0_r. reflexivity.
    + rewrite (IH s count Hs).
      replace (S shellIndex + s)%nat with (shellIndex + S s)%nat by lia.
      replace (calls + 3 + 3 * s)%nat with (calls + 3 * S s)%nat by lia.
      reflexivity.
Qed.

Lemma INR_succ_IZR (n : nat) : IZR (Z.of_nat n + 1) = (INR n + 1)%R.
Proof.
  now rewrite plus_IZR, <- INR_IZR_INZ.
Qed.

(** C3.  For the shell of 0-based index [s] with [count > 0] electrons, the
    orbit and every electron have radius [(s + 1) * 1.2], every electron has
    angular speed [2 / (s + 1)], and the electron of index [e] has phase
    offset [off e = (e / count) * 2 pi].  The offsets start at [0], two
    successive ones are [2 pi / count] apart and [off count] would be
    [2 pi]: they cut [[0, 2 pi)] into [count] equal arcs. *)
Theorem AtomModel_shell_geometry (element : ElementData) (flag : bool) (calls s : nat)
    (count : Z) :
  nth_error (shells element) s = Some count ->
  (0 < count)%Z ->
  let off := fun e : nat => (INR e / IZR count * (2 * PI))%R in
  (exists g : ShellGroup,
     nth_error (groups (fst (AtomModel parseFloat Math_random element flag calls))) s = Some g
     /\ orbit_radius (orbit g) = Fin ((INR s + 1) * 1.2)%R
     /\ Z.of_nat (List.length (electrons g)) = count
     /\ forall e : nat, (Z.of_nat e < count)%Z ->
          exists el : ElectronProps,
            nth_error (electrons g) e = Some el
            /\ radius el = Fin ((INR s + 1) * 1.2)%R
            /\ speed el = Fin (2 / (INR s + 1))%R
            /\ offset el = Fin (off e)
            /\ (0 <= off e < 2 * PI)%R)
  /\ off 0%nat = 0%R
  /\ (forall e : nat, off (S e) - off e = 2 * PI / IZR count)%R
  /\ off (Z.to_nat count) = (2 * PI)%R.
Proof.
  intros Hs Hcount off.
  assert (Hc : (0 < IZR count)%R) by now apply IZR_lt.
  assert (Hpi := PI_RGT_0).
  split; [ | repeat split].
  - unfold AtomModel.
    assert (Hg := shell_groups_nth_error flag (shells element) 0 calls s Hs).
    destruct (shell_groups Math_random (shells element) 0 flag calls) as [gs calls'].
    cbn [fst groups] in *. cbv zeta in Hg. rewrite Nat.add_0_l in Hg.
    eexists. split; [exact Hg | ]. cbn [orbit orbit_radius electrons inj fmul].
    rewrite INR_succ_IZR. split; [reflexivity | ].
    unfold shell_electrons. rewrite length_map, length_seq. split; [lia | ].
    intros e He. rewrite nth_error_map, nth_error_seq.
    replace (e <? Z.to_nat count)%nat with true by (symmetry; apply Nat.ltb_lt; lia).
    cbn [option_map]. rewrite Nat.add_0_l. eexists. split; [reflexivity | ].
    unfold Math_PI. cbn [radius speed offset inj fmul].
    assert (Hs1 : (0 < INR s + 1)%R) by (assert (H0 := pos_INR s); lra).
    rewrite !fdiv_finite by (rewrite ?INR_succ_IZR; lra).
    cbn [fmul]. rewrite INR_succ_IZR, <- INR_IZR_INZ.
    repeat split.
    + f_equal. field. lra.
    + f_equal. unfold off. field. lra.
    + unfold off. apply Rmult_le_pos; [ | lra].
      apply Rmult_le_pos; [apply pos_INR | ]. left. now apply Rinv_0_lt_compat.
    + unfold off.
      assert (He' : (INR e < IZR count)%R).
      { rewrite INR_IZR_INZ. now apply IZR_lt. }
      assert (Hq : (INR e / IZR count < 1)%R).
      { apply Rmult_lt_reg_r with (IZR count); [assumption | ].
        unfold Rdiv. rewrite Rmult_assoc, Rinv_l by lra. lra. }
      nra.
  - unfold off. simpl INR. unfold Rdiv. ring.
  - intros e. unfold off. rewrite S_INR. field. lra.
  - unfold off. rewrite INR_IZR_INZ, Z2Nat.id by lia. field. lra.
Qed.

End ShellConstruction.

(** Lithium: the inner shell has radius [1.2] and two electrons. *)
Lemma AtomModel_shell_geometry_witness :
  exists g : ShellGroup,
    nth_error (groups (fst (AtomModel parseFloat_decimal draws (sample 3 "6.94" [2; 1]%Z)
                              false 0))) 0
    = Some g
    /\ orbit_radius (orbit g) = Fin ((INR 0 + 1) * 1.2)%R
    /\ Z.of_nat (List.length (electrons g)) = 2%Z.
Proof.
  destruct (@AtomModel_shell_geometry parseFloat_decimal draws (sample 3 "6.94" [2; 1]%Z)
              false 0%nat 0%nat 2%Z eq_refl eq_refl)
    as ((g & Hg & Hradius & Hlen & _) & _).
  exists g. split; [exact Hg | split; [exact Hradius | exact Hlen]].
Defined.

(** ** Claims about the search *)

Lemma prefix_spec (t s : string) :
  prefix t s = true <-> exists rest : string, s = t ++ rest.
Proof.
  revert s. induction t as [ | c t IH]; intros s.
  - split; [intros _; now exists s | intros _; now destruct s].
  - destruct s as [ | d s]; cbn [prefix].
    + split; [discriminate | intros [rest Hrest]; discriminate Hrest].
    + destruct (ascii_dec c d) as [-> | Hcd].
      * rewrite IH. split; intros [rest Hrest]; exists rest.
        -- cbn [append]. now rewrite Hrest.
        -- cbn [append] in Hrest. now injection Hrest.
      * split; [discriminate | ].
        intros [rest Hrest]. cbn [append] in Hrest. injection Hrest as Hd _.
        now subst.
Qed.

(** [includes] decides the occurrence of the search string. *)
Lemma includes_spec (s t : string) : includes s t = true <-> substring_of t s.
Proof.
  unfold substring_of. induction s as [ | c s IH]; cbn [includes].
  - rewrite orb_false_r, prefix_spec. split.
    + intros [rest Hrest]. now exists "", rest.
    + intros (before & after & Hs). destruct before; [now exists after | discriminate Hs].
  - rewrite orb_true_iff, prefix_spec, IH. split.
    + intros [[rest Hrest] | (before & after & Hs)].
      * now exists "", rest.
      * exists (String c before), after. cbn [append]. now rewrite Hs.
    + intros (before & after & Hs). destruct before as [ | d before].
      * left. now exists after.
      * right. cbn [append] in Hs. injection Hs as _ Hs. now exists before, after.
Qed.


Lemma last_cons_default (A : Type) (l : list A) (a d : A) : last (a :: l) d = last l a.
Proof.
  revert a d. induction l as [ | b l IH]; intros a d; [reflexivity | ].
  change (last (a :: b :: l) d) with (last (b :: l) d). now rewrite (IH b d), (IH b a).
Qed.

Section SearchFilter.

Variable toLowerCase : string -> string.
Variable elements : list ElementData.

(** The cell of the [useMemo] always holds the filter of the last search term. *)
Lemma renders_invariant (terms : list string) :
  forall previous : string,
    renders toLowerCase elements terms
      (Some {| memo_deps := previous;
               memo_value := filter_elements toLowerCase elements previous |})
    = (Some {| memo_deps := last terms previous;
               memo_value := filter_elements toLowerCase elements (last terms previous) |},
       changes previous terms).
Proof.
  induction terms as [ | searchTerm later IH]; intros previous.
  - reflexivity.
  - cbn [renders changes]. unfold filteredElements, useMemo. cbn [memo_deps].
    destruct (String.eqb_spec previous searchTerm) as [-> | Hchanged].
    + rewrite IH. cbn [negb]. now rewrite last_cons_default.
    + rewrite IH. cbn [negb]. now rewrite last_cons_default.
Qed.

(** C6.  An element is in the filtered list exactly when it is in the data
    set and the search term occurs in its Hebrew name, or occurs in its
    English name or in its symbol after both sides are lower-cased, or occurs
    in the decimal numeral of its atomic number.  Over successive renders the
    memoised [filteredElements] is that filter of the data set for the
    current search term, and the filter runs on the first render and then
    exactly on the renders whose search term differs from the one before. *)
Theorem filteredElements_matches_and_memo :
  (forall (searchTerm : string) (e : ElementData),
     In e (filter_elements toLowerCase elements searchTerm)
     <-> In e elements
         /\ (substring_of searchTerm (hebrewName e)
             \/ substring_of (toLowerCase searchTerm) (toLowerCase (name e))
             \/ substring_of (toLowerCase searchTerm) (toLowerCase (symbol e))
             \/ substring_of searchTerm (toString (number e))))
  /\ (forall (first : string) (terms : list string),
        renders toLowerCase elements (first :: terms) None
        = (Some {| memo_deps := last terms first;
                   memo_value := filter (matches toLowerCase (last terms first)) elements |},
           true :: changes first terms)).
Proof.
  split.
  - intros searchTerm e. unfold filter_elements, matches.
    rewrite filter_In, !orb_true_iff, !includes_spec. tauto.
  - intros first terms. cbn [renders]. unfold filteredElements at 1. cbn [useMemo].
    fold (filter_elements toLowerCase elements first).
    now rewrite renders_invariant.
Qed.



End SearchFilter.





Section SearchCase.

Variable toLowerCase : string -> string.
Variable elements : list ElementData.


End SearchCase.



(** The search for ["3"] among the atomic numbers 3, 13 and 30 finds all three. *)
Example search_by_number :
  map number
    (filter_elements toLowerCase_ascii
       [sample 3 "6.94" [2; 1]%Z; sample 13 "26.98" [2; 8; 3]%Z; sample 30 "65.38" [2; 8; 18; 2]%Z;
        sample 2 "4.0026" [2%Z]]
       "3")
  = [3; 13; 30]%Z.
Proof. reflexivity. Qed.

(** ** The tilts of the orbit rings across renders *)

Section Tilts.

Variable parseFloat : string -> num Q.
Variable toLowerCase : string -> string.
Variable Math_random : nat -> R.
Variable elements : list ElementData.

Lemma shell_groups_tilts (flag : bool) (shells : list Z) :
  forall shellIndex calls : nat,
    map (fun g => rotation (orbit g)) (fst (shell_groups Math_random shells shellIndex flag calls))
    = map (tilt_drawn Math_random calls) (seq 0 (List.length shells))
    /\ snd (shell_groups Math_random shells shellIndex flag calls)
       = (calls + 3 * List.length shells)%nat.
Proof.
  induction shells as [ | count rest IH]; intros shellIndex calls.
  - split; [reflexivity | cbn; lia].
  - cbn [shell_groups]. destruct (IH (S shellIndex) (calls + 3)%nat) as [Htilts Hcalls].
    destruct (shell_groups Math_random rest (S shellIndex) flag (calls + 3)) as [others calls'].
    cbn [fst snd map List.length seq orbit rotation] in *. split.
    + rewrite Htilts, <- seq_shift, map_map. f_equal.
      * unfold tilt_drawn. now rewrite Nat.mul_0_r, !Nat.add_0_r.
      * apply map_ext. intros s. unfold tilt_drawn.
        now replace (calls + 3 + 3 * s)%nat with (calls + 3 * S s)%nat by lia.
    + lia.
Qed.

(** Every render of [App] in the 3D view draws the tilts of all the shells
    anew, from the calls of [Math.random] that follow those already made. *)
Lemma App_draws_tilts (st : AppState) (rt : Runtime) :
  viewMode st = view3d ->
  tilts (fst (App parseFloat toLowerCase Math_random elements st rt))
  = map (tilt_drawn Math_random (random_calls rt)) (seq 0 (List.length (shells (selectedElement st))))
  /\ random_calls (snd (App parseFloat toLowerCase Math_random elements st rt))
     = (random_calls rt + 3 * List.length (shells (selectedElement st)))%nat.
Proof.
  intros H3d. unfold App, AtomModel. rewrite H3d.
  destruct (filteredElements toLowerCase elements (searchTerm st) (filtered_cell rt))
    as [cell ran].
  destruct (shell_groups_tilts (paused st) (shells (selectedElement st)) 0 (random_calls rt))
    as [Htilts Hcalls].
  destruct (shell_groups Math_random (shells (selectedElement st)) 0 (paused st)
              (random_calls rt)) as [gs calls'].
  cbn [fst snd tilts canvas groups random_calls] in *. now split.
Qed.

End Tilts.

(** C9 (the code departs from it).  Hydrogen is selected and shown in the 3D
    view; the pause button is clicked, so [App] and [AtomModel] are rendered
    again with the same element.  The ring of the shell had the tilt drawn
    by the calls 0, 1 and 2 of [Math.random]; after the click it has the tilt
    drawn by the calls 3, 4 and 5, which is another one. *)
Theorem pause_click_redraws_tilts :
  let render := App parseFloat_decimal toLowerCase_ascii draws [sample 1 "1.008" [1%Z]] in
  let before := render hydrogen_selected page_loaded in
  let after := render (click_pause hydrogen_selected) (snd before) in
  selectedElement (click_pause hydrogen_selected) = selectedElement hydrogen_selected
  /\ tilts (fst before) = [(Fin (1 / 2 * PI)%R, Fin (1 / 3 * PI)%R, Fin (1 / 4 * PI)%R)]
  /\ tilts (fst after) = [(Fin (1 / 5 * PI)%R, Fin (1 / 6 * PI)%R, Fin (1 / 7 * PI)%R)]
  /\ tilts (fst before) <> tilts (fst after).
Proof.
  intros render before after.
  destruct (@App_draws_tilts parseFloat_decimal toLowerCase_ascii draws
              [sample 1 "1.008" [1%Z]] hydrogen_selected page_loaded eq_refl)
    as [Hbefore Hcalls].
  destruct (@App_draws_tilts parseFloat_decimal toLowerCase_ascii draws
              [sample 1 "1.008" [1%Z]] (click_pause hydrogen_selected) (snd before) eq_refl)
    as [Hafter _].
  fold render in Hbefore, Hcalls, Hafter. fold before in Hbefore, Hcalls. fold after in Hafter.
  rewrite Hcalls in Hafter.
  cbn [click_pause hydrogen_selected page_loaded selectedElement sample shells random_calls
       List.length seq map Nat.add Nat.mul] in Hbefore, Hafter.
  unfold tilt_drawn, draws, Math_PI in Hbefore, Hafter.
  cbn [fmul Nat.add Nat.mul INR] in Hbefore, Hafter.
  assert (Hpi := PI_RGT_0).
  assert (Ebefore : tilts (fst before)
                    = [(Fin (1 / 2 * PI)%R, Fin (1 / 3 * PI)%R, Fin (1 / 4 * PI)%R)]).
  { rewrite Hbefore. repeat f_equal; field. }
  assert (Eafter : tilts (fst after)
                   = [(Fin (1 / 5 * PI)%R, Fin (1 / 6 * PI)%R, Fin (1 / 7 * PI)%R)]).
  { rewrite Hafter. repeat f_equal; field. }
  repeat split; try assumption.
  rewrite Ebefore, Eafter. intros E. injection E as E _ _. lra.
Qed.

(** * Further properties *)

(** ** The placement loop on every input *)

(** With a finite [total], fuel that does not exceed the number of
    iterations left is used up inside the loop. *)
Lemma for_loop_short (fuel : nat) :
  forall (protons : int) (total i : Z) (st : placement),
    (Z.of_nat fuel <= total - i)%Z ->
    for_loop fuel protons (Fin total) i st = None.
Proof.
  induction fuel as [ | fuel IH]; intros protons total i st Hfuel; [reflexivity | ].
  cbn [for_loop lt].
  replace (i <? total)%Z with true by (symmetry; apply Z.ltb_lt; lia).
  apply IH. lia.
Qed.

(** The result of the placement, whatever the props are. *)
Lemma Nucleus_particles_result (fuel : nat) (protons neutrons : int) (placed : placement) :
  Nucleus_particles fuel protons neutrons = Some placed ->
  match add protons neutrons with
  | Fin total =>
      placed
      = {| pts := map (fun k : nat => particle_at protons (Fin total) (Z.of_nat k))
                    (seq 0 (Z.to_nat total));
           divisors := repeat (Fin (IZR total)) (Z.to_nat total) |}
  | Inf false => False
  | _ => placed = no_particles
  end.
Proof.
  unfold Nucleus_particles. destruct (add protons neutrons) as [ | [ | ] | total].
  - destruct fuel as [ | fuel]; [discriminate | ].
    rewrite for_loop_exit by reflexivity. now intros [= <-].
  - destruct fuel as [ | fuel]; [discriminate | ].
    rewrite for_loop_exit by reflexivity. now intros [= <-].
  - change (Inf false : int) with (Infinity : int). now rewrite for_loop_Infinity.
  - destruct (Z.le_gt_cases total 0) as [Hneg | Hpos].
    + destruct fuel as [ | fuel]; [discriminate | ].
      rewrite for_loop_exit by (cbn [lt]; apply Z.ltb_ge; lia).
      intros [= <-]. now replace (Z.to_nat total) with 0%nat by lia.
    + destruct (Nat.le_gt_cases fuel (Z.to_nat total)) as [Hshort | Hfuel].
      * rewrite for_loop_short by lia. discriminate.
      * rewrite (@for_loop_finite (Z.to_nat total) fuel protons total 0%Z no_particles) by lia.
        now intros [= <-].
Qed.

(** X1.  On every input on which the placement returns (negative, [NaN] or
    [-Infinity] counts included), no division by zero was executed: every
    divisor is a positive integer.  Every particle has finite coordinates
    on the sphere of radius [0.3], and there are [max 0 total] particles
    for a finite [total] and none otherwise. *)
Theorem Nucleus_particles_always_safe (fuel : nat) (protons neutrons : int)
    (placed : placement) :
  Nucleus_particles fuel protons neutrons = Some placed ->
  Forall (fun d => exists t : Z, d = Fin (IZR t) /\ (0 < t)%Z) (divisors placed)
  /\ Forall (fun p => exists px py pz : R,
                 pos p = (Fin px, Fin py, Fin pz)
                 /\ (px * px + py * py + pz * pz = 0.3 * 0.3)%R) (pts placed)
  /\ Z.of_nat (List.length (pts placed))
     = match add protons neutrons with
       | Fin total => Z.max 0 total
       | _ => 0%Z
       end.
Proof.
  intros Hrun. apply Nucleus_particles_result in Hrun.
  destruct (add protons neutrons) as [ | [ | ] | total]; try contradiction;
    try (subst placed; repeat split; constructor).
  subst placed. cbn [pts divisors]. repeat split.
  - apply Forall_forall. intros d Hd.
    destruct (Z.to_nat total) as [ | n] eqn:E; [destruct Hd | ].
    apply repeat_spec in Hd. subst d. exists total. split; [reflexivity | lia].
  - apply Forall_forall. intros p Hp. apply in_map_iff in Hp.
    destruct Hp as (k & <- & Hk). apply in_seq in Hk.
    rewrite particle_at_finite by lia. cbn [pos].
    eexists _, _, _. split; [reflexivity | apply on_sphere].
  - rewrite length_map, length_seq. lia.
Qed.

Lemma Nucleus_particles_always_safe_witness :
  exists placed : placement,
    Nucleus_particles 3 (Fin 1%Z) (Fin 1%Z) = Some placed
    /\ Forall (fun d => exists t : Z, d = Fin (IZR t) /\ (0 < t)%Z) (divisors placed)
    /\ Z.of_nat (List.length (pts placed)) = 2%Z.
Proof.
  eexists. split; [reflexivity | ].
  match goal with
  | |- Forall _ (divisors ?placed) /\ _ =>
      destruct (@Nucleus_particles_always_safe 3 (Fin 1%Z) (Fin 1%Z) placed eq_refl)
        as (Hdiv & _ & Hlen)
  end.
  split; [exact Hdiv | exact Hlen].
Defined.

(** X2.  The placement returns, given enough fuel, exactly when the total
    is not [+Infinity]; with [total = Infinity] the loop never ends. *)
Theorem Nucleus_particles_terminates_iff (protons neutrons : int) :
  (exists (fuel : nat) (placed : placement),
     Nucleus_particles fuel protons neutrons = Some placed)
  <-> add protons neutrons <> Infinity.
Proof.
  split.
  - intros (fuel & placed & Hrun) Hinf. apply Nucleus_particles_result in Hrun.
    rewrite Hinf in Hrun. exact Hrun.
  - intros Hfinite. unfold Nucleus_particles.
    destruct (add protons neutrons) as [ | [ | ] | total].
    + exists 1%nat, no_particles. reflexivity.
    + exists 1%nat, no_particles. reflexivity.
    + now contradiction Hfinite.
    + destruct (Z.le_gt_cases total 0) as [Hneg | Hpos].
      * exists 1%nat, no_particles. apply for_loop_exit. cbn [lt]. apply Z.ltb_ge. lia.
      * eexists (S (Z.to_nat total)), _.
        apply (@for_loop_finite (Z.to_nat total)); lia.
Qed.

Lemma index_ratio_bounds (total i : Z) :
  (0 <= i < total)%Z -> (0 <= IZR i / IZR total < 1)%R.
Proof.
  intros [Hi Ht].
  assert (Hi' : (0 <= IZR i)%R) by now apply IZR_le.
  assert (Ht' : (IZR i < IZR total)%R) by now apply IZR_lt.
  split.
  - apply Rmult_le_pos; [assumption | ]. left. apply Rinv_0_lt_compat. lra.
  - apply Rmult_lt_reg_r with (IZR total); [lra | ].
    unfold Rdiv. rewrite Rmult_assoc, Rinv_l by lra. lra.
Qed.

(** The height of the particle of index [i]. *)
Lemma particle_at_height (protons : int) (total i : Z) :
  (0 <= i < total)%Z ->
  exists px py : R,
    pos (particle_at protons (Fin total) i)
    = (Fin px, Fin py, Fin (0.3 * (2 * IZR i / IZR total - 1))%R).
Proof.
  intros Hi. rewrite particle_at_finite by assumption. cbn [pos].
  assert (Hq := index_ratio_bounds Hi).
  rewrite cos_acos by (unfold Rdiv in *; lra).
  eexists _, _. do 2 f_equal. lra.
Qed.

(** X3.  The particle of index [i] is at height [0.3 * (2 i / total - 1)]:
    the heights rise in equal steps from [-0.3], so two particles of the
    same nucleus are never placed at the same point. *)
Theorem Nucleus_particles_heights (fuel : nat) (protons neutrons : int) (total : Z)
    (placed : placement) :
  add protons neutrons = Fin total ->
  Nucleus_particles fuel protons neutrons = Some placed ->
  (forall (i : nat) (p : particle),
     nth_error (pts placed) i = Some p ->
     exists px py : R,
       pos p = (Fin px, Fin py, Fin (0.3 * (2 * INR i / IZR total - 1))%R))
  /\ (forall (i j : nat) (p q : particle),
        nth_error (pts placed) i = Some p ->
        nth_error (pts placed) j = Some q ->
        pos p = pos q -> i = j).
Proof.
  intros Htotal Hrun. apply Nucleus_particles_result in Hrun. rewrite Htotal in Hrun.
  assert (Hnth : forall (i : nat) (p : particle),
             nth_error (pts placed) i = Some p ->
             (0 <= Z.of_nat i < total)%Z
             /\ p = particle_at protons (Fin total) (Z.of_nat i)).
  { intros i p Hp. subst placed. cbn [pts] in Hp.
    rewrite nth_error_map, nth_error_seq in Hp.
    destruct (Nat.ltb_spec i (Z.to_nat total)) as [Hi | Hi]; [ | discriminate Hp].
    cbn [option_map] in Hp. rewrite Nat.add_0_l in Hp. injection Hp as <-.
    split; [lia | reflexivity]. }
  split.
  - intros i p Hp. destruct (Hnth i p Hp) as [Hi ->].
    rewrite INR_IZR_INZ. now apply particle_at_height.
  - intros i j p q Hp Hq Hsame.
    destruct (Hnth i p Hp) as [Hi ->]. destruct (Hnth j q Hq) as [Hj ->].
    destruct (particle_at_height protons Hi) as (px & py & Ep).
    destruct (particle_at_height protons Hj) as (qx & qy & Eq).
    rewrite Ep, Eq in Hsame. injection Hsame as _ _ Hz.
    assert (Ht : (0 < IZR total)%R) by (apply IZR_lt; lia).
    assert (Hij : IZR (Z.of_nat i) = IZR (Z.of_nat j)).
    { apply Rmult_eq_reg_r with (/ IZR total)%R; [ | apply Rinv_neq_0_compat; lra].
      unfold Rdiv in Hz. lra. }
    apply eq_IZR in Hij. lia.
Qed.

Lemma Nucleus_particles_heights_witness :
  exists placed : placement,
    Nucleus_particles 3 (Fin 1%Z) (Fin 1%Z) = Some placed
    /\ forall (i j : nat) (p q : particle),
         nth_error (pts placed) i = Some p ->
         nth_error (pts placed) j = Some q ->
         pos p = pos q -> i = j.
Proof.
  eexists. split; [reflexivity | ].
  match goal with
  | |- forall i j p q, nth_error (pts ?placed) i = _ -> _ =>
      exact (proj2 (@Nucleus_particles_heights 3 (Fin 1%Z) (Fin 1%Z) 2%Z placed
                      eq_refl eq_refl))
  end.
Defined.

(** ** The nucleus of a regular element *)

Lemma flags_below (a : Z) (b start : nat) :
  (Z.of_nat (start + b) <= a)%Z ->
  map (fun k : nat => (Z.of_nat k <? a)%Z) (seq start b) = repeat true b.
Proof.
  revert start. induction b as [ | b IH]; intros start Hle; [reflexivity | ].
  cbn [seq map repeat]. rewrite IH by lia.
  now replace (Z.of_nat start <? a)%Z with true by (symmetry; apply Z.ltb_lt; lia).
Qed.

Lemma flags_above (a : Z) (b start : nat) :
  (a <= Z.of_nat start)%Z ->
  map (fun k : nat => (Z.of_nat k <? a)%Z) (seq start b) = repeat false b.
Proof.
  revert start. induction b as [ | b IH]; intros start Hle; [reflexivity | ].
  cbn [seq map repeat]. rewrite IH by lia.
  now replace (Z.of_nat start <? a)%Z with false by (symmetry; apply Z.ltb_ge; lia).
Qed.

Section RegularElement.

Variable parseFloat : string -> num Q.

(** X4.  For an element of atomic number [number >= 0] whose rounded mass
    is an integer [r >= number], the nucleus is made of [number] protons
    followed by [r - number] neutrons. *)
Theorem AtomModel_particles_protons_then_neutrons (element : ElementData) (r : Z)
    (fuel : nat) :
  Math_round (parseFloat (atomicMass element)) = Fin r ->
  (0 <= number element <= r)%Z ->
  (Z.to_nat r < fuel)%nat ->
  exists placed : placement,
    AtomModel_particles parseFloat fuel element = Some placed
    /\ map isProton (pts placed)
       = (repeat true (Z.to_nat (number element))
          ++ repeat false (Z.to_nat (r - number element)))%list.
Proof.
  intros Hround Hnumber Hfuel.
  rewrite (particles_of_rounded_mass parseFloat element Hround Hfuel).
  eexists. split; [reflexivity | ]. cbn [pts]. rewrite map_map.
  replace (Z.to_nat r)
    with (Z.to_nat (number element) + Z.to_nat (r - number element))%nat by lia.
  rewrite seq_app, map_app. f_equal.
  - apply flags_below. lia.
  - apply flags_above. lia.
Qed.

End RegularElement.

(** Lithium, of mass 6.94: three protons, then four neutrons. *)
Lemma AtomModel_particles_protons_then_neutrons_witness :
  exists placed : placement,
    AtomModel_particles parseFloat_decimal 8 (sample 3 "6.94" [2; 1]%Z) = Some placed
    /\ map isProton (pts placed) = [true; true; true; false; false; false; false].
Proof.
  apply (@AtomModel_particles_protons_then_neutrons parseFloat_decimal
           (sample 3 "6.94" [2; 1]%Z) 7%Z 8%nat).
  - reflexivity.
  - cbn. lia.
  - cbn. lia.
Defined.

(** ** The motion of an electron *)




(** A frame overwrites what the frame before it wrote. *)
Lemma Electron_useFrame_overwrites (props : ElectronProps) (t t' : float)
    (ref : option THREE.Vector3) :
  Electron_useFrame props t (Electron_useFrame props t' ref) = Electron_useFrame props t ref.
Proof.
  unfold Electron_useFrame. destruct ref as [position | ]; [ | reflexivity].
  destruct (isPaused props); reflexivity.
Qed.

Lemma advance_frame_overwrites (t t' : float) (sc : Scene) :
  advance_frame t (advance_frame t' sc) = advance_frame t sc.
Proof.
  unfold advance_frame. rewrite map_map. apply map_ext. intros [props ref].
  cbn [fst snd]. now rewrite Electron_useFrame_overwrites.
Qed.

(** X7.  Only the last clock reading matters: after any number of frames the
    scene is what the last frame alone makes of the initial scene, for
    running, paused and unmounted electrons alike. *)
Theorem run_frames_last_frame (clock : list float) (elapsedTime : float) (sc : Scene) :
  run_frames (clock ++ [elapsedTime]) sc = advance_frame elapsedTime sc.
Proof.
  unfold run_frames. rewrite fold_left_app. cbn [fold_left].
  revert sc. induction clock as [ | t clock IH]; intros sc; [reflexivity | ].
  cbn [fold_left]. rewrite IH. apply advance_frame_overwrites.
Qed.

(** ** The shells of an element *)

Section ShellCounts.

Variable parseFloat : string -> num Q.
Variable Math_random : nat -> R.

Lemma shell_electrons_length (count : Z) (shellIndex : nat) (radius : float) (flag : bool) :
  List.length (shell_electrons count shellIndex radius flag) = Z.to_nat count.
Proof.
  unfold shell_electrons. now rewrite length_map, length_seq.
Qed.

Lemma shell_groups_counts (flag : bool) (shells : list Z) :
  forall shellIndex calls : nat,
    map (fun g => List.length (electrons g))
      (fst (shell_groups Math_random shells shellIndex flag calls))
    = map Z.to_nat shells.
Proof.
  induction shells as [ | count rest IH]; intros shellIndex calls; [reflexivity | ].
  cbn [shell_groups]. specialize (IH (S shellIndex) (calls + 3)%nat).
  destruct (shell_groups Math_random rest (S shellIndex) flag (calls + 3)) as [others calls'].
  cbn [fst map electrons] in *. now rewrite IH, shell_electrons_length.
Qed.

Lemma length_concat_sum (A : Type) (ls : list (list A)) :
  List.length (List.concat ls) = list_sum (map (@List.length A) ls).
Proof.
  induction ls as [ | l ls IH]; [reflexivity | ].
  cbn [List.concat map list_sum]. now rewrite length_app, IH.
Qed.

(** X8.  One render of [AtomModel] makes one group per entry of [shells],
    the entry of index [s] giving [max 0 count] electrons (an entry that is
    zero or negative still gets its orbit ring, with no electron), and calls
    [Math.random] three times per shell. *)
Theorem AtomModel_counts (element : ElementData) (flag : bool) (calls : nat) :
  let rendered := AtomModel parseFloat Math_random element flag calls in
  map (fun g => List.length (electrons g)) (groups (fst rendered))
  = map Z.to_nat (shells element)
  /\ List.length (all_electrons (fst rendered)) = electron_total (shells element)
  /\ snd rendered = (calls + 3 * List.length (shells element))%nat.
Proof.
  intros rendered. subst rendered. unfold AtomModel, all_electrons, electron_total.
  assert (Hcounts := shell_groups_counts flag (shells element) 0 calls).
  destruct (shell_groups_tilts Math_random flag (shells element) 0 calls) as [_ Hcalls].
  destruct (shell_groups Math_random (shells element) 0 flag calls) as [gs calls'].
  cbn [fst snd groups] in *. repeat split.
  - exact Hcounts.
  - now rewrite length_concat_sum, map_map, Hcounts.
  - exact Hcalls.
Qed.




End ShellCounts.

(** ** Further properties of the search *)

Lemma append_nil_right (s : string) : s ++ "" = s.
Proof.
  induction s as [ | c s IH]; [reflexivity | ]. cbn [append]. now rewrite IH.
Qed.


Lemma substring_of_refl (s : string) : substring_of s s.
Proof.
  exists "", "". cbn [append]. now rewrite append_nil_right.
Qed.




Lemma NoDup_map_filter (A B : Type) (key : A -> B) (f : A -> bool) (l : list A) :
  NoDup (map key l) -> NoDup (map key (filter f l)).
Proof.
  induction l as [ | a l IH]; [trivial | ].
  cbn [map filter]. intros Hnodup. inversion Hnodup as [ | k ks Hfresh Hrest]; subst.
  destruct (f a); [ | now apply IH].
  cbn [map]. constructor; [ | now apply IH].
  intros Hin. apply Hfresh. apply in_map_iff in Hin. destruct Hin as (b & Hb & Hbin).
  apply in_map_iff. exists b. split; [assumption | ].
  apply filter_In in Hbin. tauto.
Qed.


Section SearchResults.

Variable toLowerCase : string -> string.
Variable elements : list ElementData.

(** X10.  Every element of the data set is found by typing its Hebrew name,
    its English name, its symbol or its atomic number in full. *)
Theorem element_found_by_its_fields (e : ElementData) :
  In e elements ->
  In e (filter_elements toLowerCase elements (hebrewName e))
  /\ In e (filter_elements toLowerCase elements (name e))
  /\ In e (filter_elements toLowerCase elements (symbol e))
  /\ In e (filter_elements toLowerCase elements (toString (number e))).
Proof.
  intros He.
  assert (Hself : forall s : string, includes s s = true).
  { intros s. apply includes_spec, substring_of_refl. }
  unfold filter_elements, matches.
  repeat split; apply filter_In; (split; [exact He | ]);
    rewrite ?Hself, ?orb_true_r; reflexivity.
Qed.


(** X12.  The buttons of the strip are keyed by atomic number: when the
    atomic numbers of the data set are pairwise different, so are the keys
    of every filtered list, and the list is never longer than the data set. *)
Theorem filtered_keys_unique (searchTerm : string) :
  NoDup (map number elements) ->
  NoDup (map number (filter_elements toLowerCase elements searchTerm))
  /\ (List.length (filter_elements toLowerCase elements searchTerm)
      <= List.length elements)%nat.
Proof.
  intros Hkeys. split.
  - now apply NoDup_map_filter.
  - apply filter_length_le.
Qed.

End SearchResults.

Lemma element_found_by_its_fields_witness :
  In latin_named (filter_elements toLowerCase_ascii [sample 2 "4.0026" [2%Z]; latin_named] "X").
Proof.
  apply (@element_found_by_its_fields toLowerCase_ascii
           [sample 2 "4.0026" [2%Z]; latin_named] latin_named).
  right. left. reflexivity.
Defined.


Lemma filtered_keys_unique_witness :
  NoDup (map number
           (filter_elements toLowerCase_ascii
              [sample 3 "6.94" [2; 1]%Z; sample 13 "26.98" [2; 8; 3]%Z] "3")).
Proof.
  apply (@filtered_keys_unique toLowerCase_ascii
           [sample 3 "6.94" [2; 1]%Z; sample 13 "26.98" [2; 8; 3]%Z] "3").
  repeat constructor; cbn; intuition discriminate.
Defined.

(** ** The category colours *)

(** The case of a key of [colors], whose classes have the hue [hue]. *)
Ltac own_key hue :=
  split;
  [ split; [ intros H; vm_compute in H; discriminate H
           | intros [Hown _]; discriminate Hown ]
  | intros bar Hbar; vm_compute in Hbar; injection Hbar as <-;
    exists hue; split; reflexivity ].

Section CategoryColours.

Variable Object_prototype_has : string -> bool.

(** X13.  The colour bar of an element button.  The expression
    [getCategoryColor(category).split(' ')[1].replace('border-', 'bg-')]
    throws exactly when [category] is not a key of [colors] but names a
    property that [colors] inherits from [Object.prototype]; otherwise
    [getCategoryColor] returns the three classes of one hue (zinc for an
    unknown category) and the bar gets the class [bg-<hue>-500/50]. *)
Theorem category_bar_defined (category : string) :
  (category_bar Object_prototype_has category = None
   <-> own_property colors category = None /\ Object_prototype_has category = true)
  /\ (forall bar : string,
        category_bar Object_prototype_has category = Some bar ->
        exists hue : string,
          getCategoryColor Object_prototype_has category
          = a_string ("bg-" ++ hue ++ "-500/20 border-" ++ hue ++ "-500/50 text-" ++ hue ++ "-400")
          /\ bar = "bg-" ++ hue ++ "-500/50").
Proof.
  unfold category_bar, getCategoryColor, colors. cbn [own_property].
  destruct (String.eqb "אל-מתכת" category); [own_key "emerald" | ].
  destruct (String.eqb "גז אציל" category); [own_key "purple" | ].
  destruct (String.eqb "מתכת אלקלית" category); [own_key "red" | ].
  destruct (String.eqb "מתכת אלקלית עפרורית" category); [own_key "orange" | ].
  destruct (String.eqb "מתחמת" category); [own_key "blue" | ].
  destruct (String.eqb "הלוגן" category); [own_key "yellow" | ].
  destruct (String.eqb "מתכת מעבר" category); [own_key "pink" | ].
  destruct (String.eqb "מתכת מעבר פוסט" category); [own_key "cyan" | ].
  destruct (Object_prototype_has category).
  - split; [split; [now split | reflexivity] | discriminate].
  - split; [split; [intros H; vm_compute in H; discriminate H | intros [_ H]; discriminate H] | ].
    intros bar Hbar. vm_compute in Hbar. injection Hbar as <-.
    exists "zinc". split; reflexivity.
Qed.

End CategoryColours.

(** ** The layout handlers *)

(** X14.  The two layout buttons only touch the two panel flags:
    [resetLayout] shows both panels and [toggleFullInteractive] hides both
    whatever was shown before, so each undoes the other's effect, and both
    commute with pausing and with selecting an element. *)
Theorem layout_handlers_compose (st : AppState) (element : ElementData) :
  resetLayout (toggleFullInteractive st) = resetLayout st
  /\ toggleFullInteractive (resetLayout st) = toggleFullInteractive st
  /\ (showInfo (resetLayout st), showList (resetLayout st)) = (true, true)
  /\ (showInfo (toggleFullInteractive st), showList (toggleFullInteractive st)) = (false, false)
  /\ click_pause (resetLayout st) = resetLayout (click_pause st)
  /\ click_pause (toggleFullInteractive st) = toggleFullInteractive (click_pause st)
  /\ click_element element (resetLayout st) = resetLayout (click_element element st)
  /\ click_element element (toggleFullInteractive st)
     = toggleFullInteractive (click_element element st).
Proof.
  repeat split.
Qed.

(** ** The meshes of the nucleus *)

Lemma Nucleus_meshes_nth_error (hoveredIndex : option nat) (particles : list particle) :
  forall (start i : nat) (m : Mesh),
    nth_error (Nucleus_meshes particles start hoveredIndex) i = Some m ->
    exists p : particle,
      nth_error particles i = Some p
      /\ mesh_key m = (start + i)%nat
      /\ mesh_position m = pos p
      /\ mesh_color m = (if isProton p then "#ff4444" else "#4444ff")
      /\ mesh_tooltip m
         = match hoveredIndex with
           | Some h => if Nat.eqb h (start + i)
                       then Some (if isProton p then "פרוטון" else "ניוטרון")
                       else None
           | None => None
           end.
Proof.
  induction particles as [ | p rest IH]; intros start i m Hm.
  - destruct i; discriminate Hm.
  - destruct i as [ | i]; cbn [Nucleus_meshes nth_error] in Hm.
    + injection Hm as <-. exists p. rewrite Nat.add_0_r. now repeat split.
    + destruct (IH (S start) i m Hm) as (q & Hq & Hkey & Hrest).
      exists q. replace (start + S i)%nat with (S start + i)%nat by lia.
      now repeat split.
Qed.

(** X15.  Among the meshes of the nucleus at most one shows a tooltip, the
    one whose index is [hoveredIndex]; its text says proton on a red
    particle and neutron on a blue one.  The mesh of index [i] has key [i]. *)
Theorem Nucleus_meshes_tooltip (particles : list particle) (hoveredIndex : option nat) :
  (forall (i : nat) (m : Mesh),
     nth_error (Nucleus_meshes particles 0 hoveredIndex) i = Some m ->
     mesh_key m = i
     /\ (mesh_tooltip m <> None <-> hoveredIndex = Some i)
     /\ (mesh_tooltip m = Some "פרוטון" -> mesh_color m = "#ff4444")
     /\ (mesh_tooltip m = Some "ניוטרון" -> mesh_color m = "#4444ff"))
  /\ (forall (i j : nat) (m m' : Mesh),
        nth_error (Nucleus_meshes particles 0 hoveredIndex) i = Some m ->
        nth_error (Nucleus_meshes particles 0 hoveredIndex) j = Some m' ->
        mesh_tooltip m <> None -> mesh_tooltip m' <> None -> i = j).
Proof.
  assert (Hone : forall (i : nat) (m : Mesh),
             nth_error (Nucleus_meshes particles 0 hoveredIndex) i = Some m ->
             mesh_key m = i
             /\ (mesh_tooltip m <> None <-> hoveredIndex = Some i)
             /\ (mesh_tooltip m = Some "פרוטון" -> mesh_color m = "#ff4444")
             /\ (mesh_tooltip m = Some "ניוטרון" -> mesh_color m = "#4444ff")).
  { intros i m Hm.
    destruct (Nucleus_meshes_nth_error hoveredIndex particles 0 i Hm)
      as (p & _ & Hkey & _ & Hcolor & Htip).
    cbn [Nat.add] in *. rewrite Hcolor, Htip. split; [exact Hkey | ].
    destruct hoveredIndex as [h | ].
    - destruct (Nat.eqb_spec h i) as [-> | Hne].
      + destruct (isProton p); repeat split; try discriminate; trivial.
      + repeat split; try discriminate; try contradiction.
        intros [= E]. contradiction.
    - repeat split; try discriminate; contradiction. }
  split; [exact Hone | ].
  intros i j m m' Hm Hm' Ht Ht'.
  apply (Hone i m Hm) in Ht. apply (Hone j m' Hm') in Ht'.
  rewrite Ht in Ht'. now injection Ht'.
Qed.

(** The bar of a noble gas is purple, that of an unknown category is zinc,
    and the category ["toString"] makes the expression throw. *)
Example category_bar_samples :
  category_bar in_Object_prototype "גז אציל" = Some "bg-purple-500/50"
  /\ category_bar in_Object_prototype "unknown" = Some "bg-zinc-500/50"
  /\ category_bar in_Object_prototype "toString" = None.
Proof. repeat split. Qed.
